(** * comparator: the response comparison engine

    A shallow embedding of [comparator.go].  Go strings are byte sequences and
    are modelled by [string] (a list of 8-bit [ascii]); [int] results of the
    [strings] package are integers in [Z]; a run-time panic is an outcome of
    its own in the [exec] monad; a pair [(value, error)] returned by a Go
    function is a pair whose second component is [option error], [None]
    standing for the [nil] error. *)

From Stdlib Require Import ZArith Lia Bool List Ascii String.
Import ListNotations.

Local Open Scope string_scope.
Local Open Scope Z_scope.

(** ** Outcomes of code that may panic *)

Inductive exec (A : Type) : Type :=
| Ret (a : A)
| Panic.

Arguments Ret {A} a.
Arguments Panic {A}.

Definition bind {A B : Type} (m : exec A) (k : A -> exec B) : exec B :=
  match m with
  | Ret a => k a
  | Panic => Panic
  end.

Notation "x <- m ;; k" := (bind m (fun x => k))
  (at level 61, m at next level, right associativity).

(** ** The parts of Go's [strings] package and of string slicing the code uses *)

Module strings.

Definition len (s : string) : Z := Z.of_nat (String.length s).

(** [strings.HasPrefix(s, prefix)]. *)
Definition HasPrefix (s prefix : string) : bool := String.prefix prefix s.

(** [strings.LastIndex(s, substr)]: the index of the last instance of
    [substr] in [s], or [-1]; the empty [substr] is found at [len s]. *)
Fixpoint LastIndex (s substr : string) : Z :=
  match s with
  | EmptyString => if String.eqb substr EmptyString then 0 else -1
  | String _ r =>
      let i := LastIndex r substr in
      if 0 <=? i then 1 + i
      else if String.prefix substr s then 0 else -1
  end.

(** [strings.Replace(s, old, new, n)] for a non-empty [old]: the first [n]
    non-overlapping instances of [old] are replaced, all of them when
    [n < 0].  [skip] counts the bytes of a replaced instance still to be
    passed over. *)
Fixpoint Replace_from (old new s : string) (skip : nat) (n : Z) : string :=
  match s with
  | EmptyString => EmptyString
  | String c r =>
      match skip with
      | S k => Replace_from old new r k n
      | O =>
          if negb (n =? 0) && String.prefix old s
          then new ++ Replace_from old new r (String.length old - 1) (n - 1)
          else String c (Replace_from old new r 0 n)
      end
  end.

(** The empty [old] matches before every byte and at the end (Go counts
    UTF-8 sequences; the two agree on ASCII text). *)
Fixpoint Replace_empty (new s : string) (n : Z) : string :=
  if n =? 0 then s
  else new ++ match s with
              | EmptyString => EmptyString
              | String c r => String c (Replace_empty new r (n - 1))
              end.

Definition Replace (s old new : string) (n : Z) : string :=
  if String.eqb old new || (n =? 0) then s
  else if String.eqb old EmptyString then Replace_empty new s n
  else Replace_from old new s 0 n.

(** [strings.Split(s, sep)] for a non-empty [sep]; [cur] is the piece being
    accumulated. *)
Fixpoint Split_from (sep s : string) (skip : nat) (cur : string) : list string :=
  match s with
  | EmptyString => [cur]
  | String c r =>
      match skip with
      | S k => Split_from sep r k cur
      | O =>
          if String.prefix sep s
          then cur :: Split_from sep r (String.length sep - 1) EmptyString
          else Split_from sep r 0 (cur ++ String c EmptyString)
      end
  end.

Fixpoint explode (s : string) : list string :=
  match s with
  | EmptyString => []
  | String c r => String c EmptyString :: explode r
  end.

Definition Split (s sep : string) : list string :=
  if String.eqb sep EmptyString then explode s else Split_from sep s 0 EmptyString.

(** The slice expression [s[lo:hi]]: it panics unless
    [0 <= lo <= hi <= len s]. *)
Definition slice (s : string) (lo hi : Z) : exec string :=
  if (0 <=? lo) && (lo <=? hi) && (hi <=? len s)
  then Ret (String.substring (Z.to_nat lo) (Z.to_nat (hi - lo)) s)
  else Panic.

End strings.

(** ** Data model *)

(** [type DiffType int8] with its two constants. *)
Inductive DiffType : Type := Delete | Insert.

Definition DiffType_int8 (t : DiffType) : Z :=
  match t with
  | Delete => -1
  | Insert => 1
  end.

(** [type Diff struct { Text string; Type DiffType }]. *)
Record Diff : Type := mkDiff { Text : string; Type_ : DiffType }.

(** A Go [error] value is observed through its [Error()] method only;
    [errors_New] is [errors.New]. *)
Record error : Type := errors_New { Error : string }.

(** ** [trimErrorHost] *)

Definition trimErrorHost (err : error) : exec error :=
  let errText := Error err in
  errWithoutHost <- strings.slice errText (strings.LastIndex errText ":") (strings.len errText) ;;
  Ret (errors_New errWithoutHost).

(** The trimming as the specification words it: the substring starting at,
    and including, the last [':'], and the whole message when it has none. *)
Fixpoint from_last_colon (s : string) : option string :=
  match s with
  | EmptyString => None
  | String c r =>
      match from_last_colon r with
      | Some t => Some t
      | None => if Ascii.eqb c ":" then Some s else None
      end
  end.

Definition trimErrorHost_spec (msg : string) : string :=
  match from_last_colon msg with
  | Some t => t
  | None => msg
  end.

(** ** [getDiffsFromStrings] *)

(** One iteration of the loop over [lines]: [diffs] is the slice built so
    far. *)
Definition getDiffsFromStrings_step (diffs : list Diff) (line : string) : list Diff :=
  if strings.HasPrefix line "+" then
    let line := strings.Replace line "+" EmptyString 1 in
    diffs ++ [mkDiff line Insert]
  else if strings.HasPrefix line "-" then
    let line := strings.Replace line "-" EmptyString 1 in
    diffs ++ [mkDiff line Delete]
  else diffs.

Definition getDiffsFromStrings (lines : list string) : list Diff :=
  fold_left getDiffsFromStrings_step lines [].

(** The parser as the specification words it: a line is kept when it begins
    with ['+'] or ['-'], loses that one character and is tagged by it. *)
Definition fragment_of_line (line : string) : list Diff :=
  match line with
  | String "+" rest => [mkDiff rest Insert]
  | String "-" rest => [mkDiff rest Delete]
  | _ => []
  end.

Definition getDiffsFromStrings_spec (lines : list string) : list Diff :=
  flat_map fragment_of_line lines.

(** ** The response of the HTTP layer *)

Module io.

(** A body is a single-use stream: a script of the reads it will answer,
    ending at end of file or with a read error. *)
Inductive Reader : Type :=
| EOF
| Data (chunk : string) (rest : Reader)
| ReadError (err : error).

End io.

Module ioutil.

(** [ioutil.ReadAll]: the bytes read until end of file or the first error,
    and that error. *)
Fixpoint ReadAll (r : io.Reader) : string * option error :=
  match r with
  | io.EOF => (EmptyString, None)
  | io.Data chunk rest =>
      let (data, err) := ReadAll rest in (chunk ++ data, err)
  | io.ReadError err => (EmptyString, Some err)
  end.

End ioutil.

Module http.

(** The two fields of [http.Response] the code reads. *)
Record Response : Type := mkResponse { Status : string; Body : io.Reader }.

End http.

(** A Go call returning [(value, error)] of which the caller reads the value
    only when the error is [nil]. *)
Inductive result (A : Type) : Type :=
| Ok (a : A)
| Err (e : error).

Arguments Ok {A} a.
Arguments Err {A} e.

(** ** The external collaborators

    [net/http], [diffmatchpatch], [gojsondiff] with its ASCII formatter,
    [encoding/json] and [goquery] are not part of the package: each is an
    interface the package is written against. *)

(** [http.Get]: the network is a state the call advances; the call returns the
    pair [(resp, err)] of two pointers, [None] being [nil]. *)
Class Network : Type := {
  World : Type;
  http_Get : World -> string -> (option http.Response * option error) * World
}.

Module diffmatchpatch.

(** [type Operation int8]: [DiffDelete = -1], [DiffInsert = 1],
    [DiffEqual = 0]. *)
Inductive Operation : Type := DiffDelete | DiffInsert | DiffEqual.

Definition Operation_eqb (a b : Operation) : bool :=
  match a, b with
  | DiffDelete, DiffDelete | DiffInsert, DiffInsert | DiffEqual, DiffEqual => true
  | _, _ => false
  end.

Record Diff : Type := mkDiff { Type_ : Operation; Text : string }.

Definition is_equal (d : Diff) : Prop := Type_ d = DiffEqual.

End diffmatchpatch.

(** The package variable [textDiffer]. *)
Class TextDiffer : Type := {
  DiffMain : string -> string -> bool -> list diffmatchpatch.Diff;
  DiffCleanupSemantic : list diffmatchpatch.Diff -> list diffmatchpatch.Diff
}.

(** The package variable [jsonDiffer], [json.Unmarshal] into a
    [map[string]interface{}] and the ASCII formatter built on that map. *)
Class JSONDiffer : Type := {
  JSONDiff : Type;
  JSONMap : Type;
  json_Valid : string -> bool;
  json_Unmarshal : string -> JSONMap * option error;
  jsonDiffer_Compare : string -> string -> result JSONDiff;
  AsciiFormatter_Format : JSONMap -> JSONDiff -> result string
}.

(** [goquery]: a document parsed from a response, the nodes a selector
    matches, in document order, and the text content of a node. *)
Class HTMLQuery : Type := {
  Document : Type;
  Node : Type;
  NewDocumentFromResponse : option http.Response -> result Document;
  Find : Document -> string -> list Node;
  node_text : Node -> string
}.

(** [Selection.Text]: the text contents of the matched nodes, concatenated. *)
Definition Selection_Text {Q : HTMLQuery} (s : list Node) : string :=
  String.concat EmptyString (map node_text s).

(** What the code relies on from [http.Get]: a [nil] error comes with a
    response, and the message of an error names the operation and the URL
    before the cause, as [url.Error] prints it. *)
Definition http_Get_contract (N : Network) : Prop :=
  forall w url resp err w',
    http_Get w url = (resp, err, w') ->
    match err with
    | None => resp <> None
    | Some e => exists op target cause, Error e = op ++ " " ++ target ++ ": " ++ cause
    end.

(** The behaviour of the text differ the statements below use: the diff of a
    text with itself holds no insertion and no deletion, and the semantic
    clean-up introduces none where there is none. *)
Definition TextDiffer_contract (T : TextDiffer) : Prop :=
  (forall s checklines, Forall diffmatchpatch.is_equal (DiffMain s s checklines)) /\
  (forall diffs, Forall diffmatchpatch.is_equal diffs ->
                 Forall diffmatchpatch.is_equal (DiffCleanupSemantic diffs)).

(** The behaviour of the JSON differ the statements below use: it decodes
    both sides and reports an error when either is not well-formed JSON. *)
Definition JSONDiffer_contract (J : JSONDiffer) : Prop :=
  forall left right,
    json_Valid left = false \/ json_Valid right = false ->
    exists e, jsonDiffer_Compare left right = Err e.

(** ** The package *)

Definition newline : string := String (ascii_of_nat 10) EmptyString.

(** A line of a rendering holds no line feed. *)
Definition no_newline (line : string) : Prop :=
  ~ In (ascii_of_nat 10) (list_ascii_of_string line).

Section Package.

Context {N : Network} {T : TextDiffer} {J : JSONDiffer} {Q : HTMLQuery}.

(** One iteration of the loop of [compareStrings]. *)
Definition compareStrings_step (result : list Diff) (element : diffmatchpatch.Diff)
  : list Diff :=
  if diffmatchpatch.Operation_eqb (diffmatchpatch.Type_ element) diffmatchpatch.DiffInsert
  then result ++ [mkDiff (diffmatchpatch.Text element) Insert]
  else if diffmatchpatch.Operation_eqb (diffmatchpatch.Type_ element) diffmatchpatch.DiffDelete
  then result ++ [mkDiff (diffmatchpatch.Text element) Delete]
  else result.

Definition compareStrings (aString bString : string) : list Diff :=
  let diffs := DiffMain aString bString true in
  let diffs := DiffCleanupSemantic diffs in
  fold_left compareStrings_step diffs [].

(** The loop of [compareStrings] as the specification words it: an
    insertion or a deletion of the differ's output gives one fragment, an
    equality gives none. *)
Definition fragment_of_edit (element : diffmatchpatch.Diff) : list Diff :=
  match diffmatchpatch.Type_ element with
  | diffmatchpatch.DiffInsert => [mkDiff (diffmatchpatch.Text element) Insert]
  | diffmatchpatch.DiffDelete => [mkDiff (diffmatchpatch.Text element) Delete]
  | diffmatchpatch.DiffEqual => []
  end.

(** [compareJSONs]: the deferred [Close] calls read [aResp.Body] and
    [bResp.Body] on entry, so a [nil] response panics there.  The [nil]
    slice is the empty list. *)
Definition compareJSONs (aResp bResp : option http.Response)
  : exec (list Diff * option error) :=
  match aResp, bResp with
  | Some aResp, Some bResp =>
      let (aBody, err) := ioutil.ReadAll (http.Body aResp) in
      match err with
      | Some _ => Ret ([], err)
      | None =>
          let (bBody, err) := ioutil.ReadAll (http.Body bResp) in
          match err with
          | Some _ => Ret ([], err)
          | None =>
              match jsonDiffer_Compare aBody bBody with
              | Err err => Ret ([], Some err)
              | Ok diff =>
                  let aJSON := fst (json_Unmarshal aBody) in
                  match AsciiFormatter_Format aJSON diff with
                  | Err err => Ret ([], Some err)
                  | Ok diffString =>
                      let lines := strings.Split diffString newline in
                      Ret (getDiffsFromStrings lines, None)
                  end
              end
          end
      end
  | _, _ => Panic
  end.

(** One iteration of the loop of [compareHTMLs]. *)
Definition compareHTMLs_step (aDoc bDoc : Document) (result : list Diff)
  (element : string) : list Diff :=
  let aElement := Find aDoc element in
  let bElement := Find bDoc element in
  result ++ compareStrings (Selection_Text aElement) (Selection_Text bElement).

Definition compareHTMLs (aResp bResp : option http.Response)
  (compareElements : list string) : list Diff * option error :=
  match NewDocumentFromResponse aResp with
  | Err err => ([], Some err)
  | Ok aDoc =>
      match NewDocumentFromResponse bResp with
      | Err err => ([], Some err)
      | Ok bDoc => (fold_left (compareHTMLs_step aDoc bDoc) compareElements [], None)
      end
  end.

(** [Compare]: [compareElements] is a slice, [None] being the [nil] slice
    and [Some []] an empty one that is not [nil]. *)
Definition Compare (w : World) (aURL bURL : string)
  (compareElements : option (list string)) : exec (list Diff * option error) :=
  let '(aResp, aErr, w) := http_Get w aURL in
  let '(bResp, bErr, w) := http_Get w bURL in
  match aErr, bErr with
  | Some aErr, None =>
      err <- trimErrorHost aErr ;;
      match bResp with
      | Some bResp => Ret ([mkDiff (Error err) Delete; mkDiff (http.Status bResp) Insert], None)
      | None => Panic
      end
  | None, Some bErr =>
      err <- trimErrorHost bErr ;;
      match aResp with
      | Some aResp => Ret ([mkDiff (http.Status aResp) Delete; mkDiff (Error err) Insert], None)
      | None => Panic
      end
  | Some aErr, Some bErr =>
      aError <- trimErrorHost aErr ;;
      bError <- trimErrorHost bErr ;;
      Ret (compareStrings (Error aError) (Error bError), None)
  | None, None =>
      match compareElements with
      | None => compareJSONs aResp bResp
      | Some compareElements => Ret (compareHTMLs aResp bResp compareElements)
      end
  end.

End Package.

(** ** A scripted environment

    Small executable stand-ins for the collaborators, on which the statements
    below are exercised. *)

Module Scripted.

(** The network serves a script: a response, or the cause of a failure. *)
Definition serve (w : list (http.Response + string)) (url : string)
  : (option http.Response * option error) * list (http.Response + string) :=
  match w with
  | [] => (None, Some (errors_New ("Get " ++ url ++ ": EOF")), [])
  | inl resp :: w' => (Some resp, None, w')
  | inr cause :: w' => (None, Some (errors_New ("Get " ++ url ++ ": " ++ cause)), w')
  end.

Definition network : Network :=
  {| World := list (http.Response + string); http_Get := serve |}.

Definition edit (op : diffmatchpatch.Operation) (s : string) : list diffmatchpatch.Diff :=
  if String.eqb s EmptyString then [] else [diffmatchpatch.mkDiff op s].

(** A differ that knows whole-text replacement only. *)
Definition replace_whole (a b : string) (checklines : bool) : list diffmatchpatch.Diff :=
  if String.eqb a b then edit diffmatchpatch.DiffEqual a
  else edit diffmatchpatch.DiffDelete a ++ edit diffmatchpatch.DiffInsert b.

Definition textDiffer : TextDiffer :=
  {| DiffMain := replace_whole; DiffCleanupSemantic := fun diffs => diffs |}.

(** A JSON layer that takes a text for a document when it opens with a
    brace, and renders a diff as the whole of each side. *)
Definition opens_object (s : string) : bool := String.prefix "{" s.

Definition pair_up (left right : string) : result (string * string) :=
  if opens_object left && opens_object right then Ok (left, right)
  else Err (errors_New "invalid character").

Definition render (left : string) (diff : string * string) : result string :=
  if String.eqb (fst diff) (snd diff) then Ok (" " ++ fst diff)
  else Ok ("-" ++ fst diff ++ newline ++ "+" ++ snd diff).

Definition jsonDiffer : JSONDiffer :=
  {| JSONDiff := string * string;
     JSONMap := string;
     json_Valid := opens_object;
     json_Unmarshal := fun s => (s, None);
     jsonDiffer_Compare := pair_up;
     AsciiFormatter_Format := render |}.

(** A document is its text; the selector [body] matches it, no other
    selector matches anything. *)
Definition parse (res : option http.Response) : result string :=
  match res with
  | None => Err (errors_New "Response is nil")
  | Some res =>
      match ioutil.ReadAll (http.Body res) with
      | (_, Some err) => Err err
      | (body, None) => Ok body
      end
  end.

Definition htmlQuery : HTMLQuery :=
  {| Document := string;
     Node := string;
     NewDocumentFromResponse := parse;
     Find := fun doc selector => if String.eqb selector "body" then [doc] else [];
     node_text := fun n => n |}.

Definition ok (status body : string) : http.Response :=
  http.mkResponse status (io.Data body io.EOF).

End Scripted.

(** * Properties *)

(** ** Strings *)

(** The examples of the documentation of the [strings] package. *)

Example LastIndex_go_gopher :
  strings.LastIndex "go gopher" "go" = 3 /\ strings.LastIndex "go gopher" "rodent" = -1.
Proof. split; reflexivity. Qed.

Example Replace_oink :
  strings.Replace "oink oink oink" "k" "ky" 2 = "oinky oinky oink" /\
  strings.Replace "oink oink oink" "oink" "moo" (-1) = "moo moo moo".
Proof. split; reflexivity. Qed.

Example Split_documented :
  strings.Split "a,b,c" "," = ["a"; "b"; "c"] /\
  strings.Split "a man a plan a canal panama" "a " = [EmptyString; "man "; "plan "; "canal panama"] /\
  strings.Split " xyz " EmptyString = [" "; "x"; "y"; "z"; " "] /\
  strings.Split EmptyString "Bernardo O'Higgins" = [EmptyString].
Proof. repeat split; reflexivity. Qed.

Example slice_bounds :
  strings.slice "golang" 2 6 = Ret "lang" /\ strings.slice "golang" (-1) 6 = Panic.
Proof. split; reflexivity. Qed.

Lemma prefix_char (c d : ascii) (r : string) :
  String.prefix (String d EmptyString) (String c r) = Ascii.eqb c d.
Proof.
  simpl. destruct (ascii_dec d c) as [->|Hne].
  - rewrite Ascii.eqb_refl. now destruct r.
  - symmetry. apply Ascii.eqb_neq. congruence.
Qed.

Lemma substring_whole (s : string) : String.substring 0 (String.length s) s = s.
Proof. induction s as [|c r IH]; simpl; [reflexivity | now rewrite IH]. Qed.

(** [strings.LastIndex] of [":"] points at the suffix [from_last_colon]
    returns, and is [-1] exactly when there is none. *)
Lemma LastIndex_colon (s : string) :
  match from_last_colon s with
  | Some t =>
      exists i : nat,
        strings.LastIndex s ":" = Z.of_nat i /\ (i < String.length s)%nat /\
        String.substring i (String.length s - i) s = t
  | None => strings.LastIndex s ":" = -1
  end.
Proof.
  induction s as [|c r IH].
  - reflexivity.
  - cbn [from_last_colon strings.LastIndex].
    destruct (from_last_colon r) as [t|].
    + destruct IH as (i & Hi & Hlt & Hsub). rewrite Hi.
      destruct (0 <=? Z.of_nat i) eqn:E; [|apply Z.leb_gt in E; lia].
      exists (S i). repeat split; [lia | simpl; lia | exact Hsub].
    + rewrite IH. change (0 <=? -1) with false. cbv iota.
      rewrite prefix_char. destruct (Ascii.eqb c ":").
      * exists 0%nat. repeat split; [simpl; lia |].
        rewrite Nat.sub_0_r. apply substring_whole.
      * reflexivity.
Qed.

Lemma from_last_colon_app (x y : string) :
  from_last_colon y <> None -> from_last_colon (x ++ y) <> None.
Proof.
  intros Hy. induction x as [|c r IH]; [exact Hy|].
  simpl. destruct (from_last_colon (r ++ y)); congruence.
Qed.

Lemma Replace_from_none (old new s : string) : strings.Replace_from old new s 0 0 = s.
Proof. induction s as [|c r IH]; simpl; [reflexivity | now rewrite IH]. Qed.

(** Removing the first instance of a character from a line that begins with
    it removes that first character. *)
Lemma Replace_leading (c : ascii) (rest : string) :
  strings.Replace (String c rest) (String c EmptyString) EmptyString 1 = rest.
Proof.
  unfold strings.Replace. cbn [String.eqb orb Z.eqb].
  cbn [strings.Replace_from Z.eqb negb andb].
  rewrite prefix_char, Ascii.eqb_refl. cbn. apply Replace_from_none.
Qed.

(** ** [trimErrorHost] *)

Lemma trimErrorHost_colon (msg t : string) :
  from_last_colon msg = Some t ->
  trimErrorHost (errors_New msg) = Ret (errors_New t).
Proof.
  intros H. pose proof (LastIndex_colon msg) as L. rewrite H in L.
  destruct L as (i & Hi & Hlt & Hsub).
  unfold trimErrorHost, strings.slice, strings.len. cbn [Error]. rewrite Hi.
  replace ((0 <=? Z.of_nat i) && (Z.of_nat i <=? Z.of_nat (String.length msg))
           && (Z.of_nat (String.length msg) <=? Z.of_nat (String.length msg))) with true.
  - cbn [bind]. rewrite Nat2Z.id.
    replace (Z.to_nat (Z.of_nat (String.length msg) - Z.of_nat i))
      with (String.length msg - i)%nat by lia.
    now rewrite Hsub.
  - symmetry. rewrite !andb_true_iff, !Z.leb_le. lia.
Qed.

Lemma trimErrorHost_no_colon (msg : string) :
  from_last_colon msg = None -> trimErrorHost (errors_New msg) = Panic.
Proof.
  intros H. pose proof (LastIndex_colon msg) as L. rewrite H in L.
  unfold trimErrorHost, strings.slice. cbn [Error]. now rewrite L.
Qed.

(** On a message that holds a [':'] the code and the specification's
    trimming agree. *)
Lemma trimErrorHost_refines_spec (err : error) :
  from_last_colon (Error err) <> None ->
  trimErrorHost err = Ret (errors_New (trimErrorHost_spec (Error err))).
Proof.
  destruct err as [msg]. cbn [Error]. intros H. unfold trimErrorHost_spec.
  destruct (from_last_colon msg) as [t|] eqn:E; [|congruence].
  now apply trimErrorHost_colon.
Qed.

Example trimErrorHost_dial :
  trimErrorHost (errors_New "dial tcp 127.0.0.1:80: connection refused")
  = Ret (errors_New ": connection refused").
Proof. reflexivity. Qed.

(** C2 (the code departs from the claim): the trimming is not total.  On a
    message that holds no [':'], [strings.LastIndex] returns [-1] and the
    slice expression panics, where the claim has the message returned
    unchanged; on the claim's own example the result is the expected
    suffix. *)
Theorem trimErrorHost_panics_without_colon :
  trimErrorHost (errors_New "connection refused") = Panic /\
  trimErrorHost_spec "connection refused" = "connection refused" /\
  trimErrorHost (errors_New "dial tcp 127.0.0.1:80: connection refused")
  = Ret (errors_New (trimErrorHost_spec "dial tcp 127.0.0.1:80: connection refused")).
Proof. repeat split. Qed.

(** ** [getDiffsFromStrings] *)

Lemma getDiffsFromStrings_step_spec (diffs : list Diff) (line : string) :
  getDiffsFromStrings_step diffs line = (diffs ++ fragment_of_line line)%list.
Proof.
  unfold getDiffsFromStrings_step, strings.HasPrefix.
  destruct line as [|c rest]; [simpl; now rewrite app_nil_r|].
  rewrite !prefix_char.
  destruct (Ascii.eqb c "+") eqn:Eplus.
  - apply Ascii.eqb_eq in Eplus. subst c. now rewrite Replace_leading.
  - destruct (Ascii.eqb c "-") eqn:Eminus.
    + apply Ascii.eqb_eq in Eminus. subst c. now rewrite Replace_leading.
    + destruct c as [[] [] [] [] [] [] [] []];
        first [discriminate Eplus | discriminate Eminus | simpl; now rewrite app_nil_r].
Qed.

Lemma fold_left_append {A B : Type} (step : list B -> A -> list B) (f : A -> list B) :
  (forall acc x, step acc x = (acc ++ f x)%list) ->
  forall l acc, fold_left step l acc = (acc ++ flat_map f l)%list.
Proof.
  intros Hstep l. induction l as [|x l IH]; intros acc; simpl.
  - now rewrite app_nil_r.
  - now rewrite IH, Hstep, <- app_assoc.
Qed.

(** C6: the line parser keeps, in their order, exactly the lines that begin
    with ['+'] or ['-'], drops the others, removes the one leading character
    of a kept line and tags the rest Insertion for ['+'] and Deletion for
    ['-']. *)
Theorem getDiffsFromStrings_refines_spec (lines : list string) :
  getDiffsFromStrings lines = getDiffsFromStrings_spec lines.
Proof.
  unfold getDiffsFromStrings, getDiffsFromStrings_spec.
  now rewrite (fold_left_append _ _ getDiffsFromStrings_step_spec).
Qed.

(** ** The comparison engine *)

Section Properties.

Context {N : Network} {T : TextDiffer} {J : JSONDiffer} {Q : HTMLQuery}.

Lemma compareStrings_step_spec (result : list Diff) (element : diffmatchpatch.Diff) :
  compareStrings_step result element = (result ++ fragment_of_edit element)%list.
Proof.
  unfold compareStrings_step, fragment_of_edit.
  destruct (diffmatchpatch.Type_ element); simpl; [reflexivity .. | now rewrite app_nil_r].
Qed.

(** [compareStrings] keeps the insertions and deletions of the cleaned-up
    diff, in its order. *)
Lemma compareStrings_edits (aString bString : string) :
  compareStrings aString bString
  = flat_map fragment_of_edit (DiffCleanupSemantic (DiffMain aString bString true)).
Proof.
  unfold compareStrings.
  now rewrite (fold_left_append _ _ compareStrings_step_spec).
Qed.

Lemma no_edit_no_fragment (diffs : list diffmatchpatch.Diff) :
  Forall diffmatchpatch.is_equal diffs -> flat_map fragment_of_edit diffs = [].
Proof.
  induction 1 as [|d l Hd _ IH]; [reflexivity|].
  simpl. rewrite IH. unfold fragment_of_edit. now rewrite Hd.
Qed.

Lemma compareStrings_identical (s : string) :
  TextDiffer_contract T -> compareStrings s s = [].
Proof.
  intros [Hmain Hclean]. rewrite compareStrings_edits.
  apply no_edit_no_fragment, Hclean, Hmain.
Qed.

Lemma compareHTMLs_step_spec (aDoc bDoc : Document) (result : list Diff) (element : string) :
  compareHTMLs_step aDoc bDoc result element
  = (result ++ compareHTMLs_step aDoc bDoc [] element)%list.
Proof. reflexivity. Qed.

(** A fetch error trims without a panic when it comes from [http.Get]. *)
Lemma trimErrorHost_fetch_error (w : World) (url : string) (resp : option http.Response)
  (e : error) (w' : World) :
  http_Get_contract N ->
  http_Get w url = (resp, Some e, w') ->
  trimErrorHost e = Ret (errors_New (trimErrorHost_spec (Error e))).
Proof.
  intros HN Hget. apply trimErrorHost_refines_spec.
  destruct (HN _ _ _ _ _ Hget) as (op & target & cause & ->).
  do 3 apply from_last_colon_app.
  simpl. destruct (from_last_colon cause); discriminate.
Qed.

(** Outside the contract of [http.Get], a fetch error without a [':'] makes
    [Compare] panic, whatever the other side is. *)
Lemma Compare_panics_on_bare_error_a
  (w : World) (aURL bURL : string) (compareElements : option (list string))
  (aResp : option http.Response) (aErr : error) (w1 : World) :
  http_Get w aURL = (aResp, Some aErr, w1) ->
  from_last_colon (Error aErr) = None ->
  Compare w aURL bURL compareElements = Panic.
Proof.
  intros Ha Hnone. unfold Compare. rewrite Ha.
  destruct (http_Get w1 bURL) as [[bResp bErr] w2].
  destruct aErr as [msg]. cbn [Error] in Hnone.
  rewrite (trimErrorHost_no_colon msg Hnone). now destruct bErr.
Qed.

(** C1: when the fetch of exactly one side fails, [Compare] returns two
    fragments and a [nil] error: the trimmed message of the failing side
    and the status text of the other, the side A fragment a Deletion and
    the side B fragment an Insertion. *)
Theorem Compare_one_fetch_failed
  (w : World) (aURL bURL : string) (compareElements : option (list string))
  (aResp bResp : option http.Response) (aErr bErr : option error) (w1 w2 : World) :
  http_Get_contract N ->
  http_Get w aURL = (aResp, aErr, w1) ->
  http_Get w1 bURL = (bResp, bErr, w2) ->
  (forall e, aErr = Some e -> bErr = None ->
     exists trimmed resp,
       trimErrorHost e = Ret trimmed /\
       Error trimmed = trimErrorHost_spec (Error e) /\
       bResp = Some resp /\
       Compare w aURL bURL compareElements
       = Ret ([mkDiff (Error trimmed) Delete; mkDiff (http.Status resp) Insert], None)) /\
  (forall e, aErr = None -> bErr = Some e ->
     exists trimmed resp,
       trimErrorHost e = Ret trimmed /\
       Error trimmed = trimErrorHost_spec (Error e) /\
       aResp = Some resp /\
       Compare w aURL bURL compareElements
       = Ret ([mkDiff (http.Status resp) Delete; mkDiff (Error trimmed) Insert], None)).
Proof.
  intros HN Ha Hb. split; intros e -> ->.
  - pose proof (trimErrorHost_fetch_error _ _ _ _ _ HN Ha) as Htrim.
    pose proof (HN _ _ _ _ _ Hb) as Hresp. cbn in Hresp.
    destruct bResp as [resp|]; [|congruence].
    exists (errors_New (trimErrorHost_spec (Error e))), resp.
    repeat split; [exact Htrim|].
    unfold Compare. rewrite Ha, Hb, Htrim. reflexivity.
  - pose proof (trimErrorHost_fetch_error _ _ _ _ _ HN Hb) as Htrim.
    pose proof (HN _ _ _ _ _ Ha) as Hresp. cbn in Hresp.
    destruct aResp as [resp|]; [|congruence].
    exists (errors_New (trimErrorHost_spec (Error e))), resp.
    repeat split; [exact Htrim|].
    unfold Compare. rewrite Ha, Hb, Htrim. reflexivity.
Qed.

(** C3: when both fetches fail, [Compare] returns a [nil] error and the
    whole output of the text diff on the two trimmed messages. *)
Theorem Compare_both_fetches_failed
  (w : World) (aURL bURL : string) (compareElements : option (list string))
  (aResp bResp : option http.Response) (aErr bErr : error) (w1 w2 : World) :
  http_Get_contract N ->
  http_Get w aURL = (aResp, Some aErr, w1) ->
  http_Get w1 bURL = (bResp, Some bErr, w2) ->
  exists aError bError,
    trimErrorHost aErr = Ret aError /\ Error aError = trimErrorHost_spec (Error aErr) /\
    trimErrorHost bErr = Ret bError /\ Error bError = trimErrorHost_spec (Error bErr) /\
    Compare w aURL bURL compareElements
    = Ret (compareStrings (Error aError) (Error bError), None).
Proof.
  intros HN Ha Hb.
  pose proof (trimErrorHost_fetch_error _ _ _ _ _ HN Ha) as Hta.
  pose proof (trimErrorHost_fetch_error _ _ _ _ _ HN Hb) as Htb.
  exists (errors_New (trimErrorHost_spec (Error aErr))),
         (errors_New (trimErrorHost_spec (Error bErr))).
  repeat split; [exact Hta | exact Htb |].
  unfold Compare. rewrite Ha, Hb, Hta, Htb. reflexivity.
Qed.

(** The outcomes of [compareJSONs] on two responses, in the order the code
    meets them. *)
Lemma compareJSONs_read_failed_a (aResp bResp : http.Response) (data : string) (e : error) :
  ioutil.ReadAll (http.Body aResp) = (data, Some e) ->
  compareJSONs (Some aResp) (Some bResp) = Ret ([], Some e).
Proof. intros H. unfold compareJSONs. now rewrite H. Qed.

Lemma compareJSONs_read_failed_b (aResp bResp : http.Response) (aBody data : string)
  (e : error) :
  ioutil.ReadAll (http.Body aResp) = (aBody, None) ->
  ioutil.ReadAll (http.Body bResp) = (data, Some e) ->
  compareJSONs (Some aResp) (Some bResp) = Ret ([], Some e).
Proof. intros Ha Hb. unfold compareJSONs. now rewrite Ha, Hb. Qed.

Lemma compareJSONs_compare_failed (aResp bResp : http.Response) (aBody bBody : string)
  (e : error) :
  ioutil.ReadAll (http.Body aResp) = (aBody, None) ->
  ioutil.ReadAll (http.Body bResp) = (bBody, None) ->
  jsonDiffer_Compare aBody bBody = Err e ->
  compareJSONs (Some aResp) (Some bResp) = Ret ([], Some e).
Proof. intros Ha Hb Hc. unfold compareJSONs. now rewrite Ha, Hb, Hc. Qed.

(** C4: when reading either body fails, or either body is not well-formed
    JSON, [compareJSONs] returns an error that is not [nil] together with
    the [nil] slice, and does not panic. *)
Theorem compareJSONs_error (aResp bResp : http.Response) :
  JSONDiffer_contract J ->
  snd (ioutil.ReadAll (http.Body aResp)) <> None \/
  snd (ioutil.ReadAll (http.Body bResp)) <> None \/
  json_Valid (fst (ioutil.ReadAll (http.Body aResp))) = false \/
  json_Valid (fst (ioutil.ReadAll (http.Body bResp))) = false ->
  exists e, compareJSONs (Some aResp) (Some bResp) = Ret ([], Some e).
Proof.
  intros HJ H.
  destruct (ioutil.ReadAll (http.Body aResp)) as [aBody [ea|]] eqn:Ha.
  { exists ea. eapply compareJSONs_read_failed_a; eauto. }
  destruct (ioutil.ReadAll (http.Body bResp)) as [bBody [eb|]] eqn:Hb.
  { exists eb. eapply compareJSONs_read_failed_b; eauto. }
  cbn [fst snd] in H.
  destruct (HJ aBody bBody) as [e He].
  { destruct H as [H|[H|[H|H]]]; try congruence; auto. }
  exists e. eapply compareJSONs_compare_failed; eauto.
Qed.

(** C7: the text diff of a string with itself is empty. *)
Theorem compareStrings_same (s : string) :
  TextDiffer_contract T -> compareStrings s s = [].
Proof. apply compareStrings_identical. Qed.

Lemma Selection_Text_empty : Selection_Text [] = EmptyString.
Proof. reflexivity. Qed.

Lemma compareHTMLs_parsed (aResp bResp : option http.Response) (aDoc bDoc : Document)
  (compareElements : list string) :
  NewDocumentFromResponse aResp = Ok aDoc ->
  NewDocumentFromResponse bResp = Ok bDoc ->
  compareHTMLs aResp bResp compareElements
  = (flat_map (compareHTMLs_step aDoc bDoc []) compareElements, None).
Proof.
  intros Ha Hb. unfold compareHTMLs. rewrite Ha, Hb.
  now rewrite (fold_left_append _ _ (compareHTMLs_step_spec aDoc bDoc)).
Qed.

(** C9: once both documents are parsed, no selector makes [compareHTMLs]
    fail: its result is the fragments of the selectors, one after the
    other, with a [nil] error.  A selector that matches nothing on one side
    gives the empty text there, so its fragments are the text diff of the
    other side's text against the empty text; a selector that matches
    nothing on both sides contributes no fragment. *)
Theorem compareHTMLs_no_match (aResp bResp : option http.Response) (aDoc bDoc : Document)
  (compareElements : list string) :
  TextDiffer_contract T ->
  NewDocumentFromResponse aResp = Ok aDoc ->
  NewDocumentFromResponse bResp = Ok bDoc ->
  compareHTMLs aResp bResp compareElements
  = (flat_map (compareHTMLs_step aDoc bDoc []) compareElements, None) /\
  forall element,
    (Find aDoc element = [] ->
     Selection_Text (Find aDoc element) = EmptyString /\
     compareHTMLs_step aDoc bDoc [] element
     = compareStrings EmptyString (Selection_Text (Find bDoc element))) /\
    (Find bDoc element = [] ->
     Selection_Text (Find bDoc element) = EmptyString /\
     compareHTMLs_step aDoc bDoc [] element
     = compareStrings (Selection_Text (Find aDoc element)) EmptyString) /\
    (Find aDoc element = [] -> Find bDoc element = [] ->
     compareHTMLs_step aDoc bDoc [] element = []).
Proof.
  intros HT Ha Hb. split; [now apply compareHTMLs_parsed|].
  intros element. unfold compareHTMLs_step. cbn [app].
  split; [|split].
  - intros ->. now split.
  - intros ->. now split.
  - intros -> ->. now apply compareStrings_identical.
Qed.

(** C10: with both fetches successful, [Compare] takes the JSON path only
    for the [nil] selector list; any other list, the empty one included,
    takes the HTML path, and with the empty list and two bodies that parse
    as documents the result is no fragment and a [nil] error. *)
Theorem Compare_selects_by_nil
  (w : World) (aURL bURL : string) (aResp bResp : option http.Response) (w1 w2 : World) :
  http_Get w aURL = (aResp, None, w1) ->
  http_Get w1 bURL = (bResp, None, w2) ->
  Compare w aURL bURL None = compareJSONs aResp bResp /\
  (forall compareElements,
     Compare w aURL bURL (Some compareElements)
     = Ret (compareHTMLs aResp bResp compareElements)) /\
  (forall aDoc bDoc,
     NewDocumentFromResponse aResp = Ok aDoc ->
     NewDocumentFromResponse bResp = Ok bDoc ->
     Compare w aURL bURL (Some []) = Ret ([], None)).
Proof.
  intros Ha Hb. unfold Compare. rewrite Ha, Hb. repeat split.
  intros aDoc bDoc Hda Hdb. now rewrite (compareHTMLs_parsed _ _ _ _ _ Hda Hdb).
Qed.

End Properties.

(** * Further properties of the package *)

(** ** Strings, continued *)

Lemma string_app_assoc (a b c : string) : (a ++ b) ++ c = a ++ b ++ c.
Proof. induction a as [|x a IH]; simpl; [reflexivity | now rewrite IH]. Qed.

Lemma string_app_nil_r (a : string) : a ++ EmptyString = a.
Proof. induction a as [|x a IH]; simpl; [reflexivity | now rewrite IH]. Qed.

Lemma from_last_colon_none_iff (s : string) :
  from_last_colon s = None <-> ~ In ":"%char (list_ascii_of_string s).
Proof.
  induction s as [|c r IH]; simpl.
  - tauto.
  - destruct (from_last_colon r) as [t|].
    + split; [discriminate|]. intros H. exfalso. apply H. right.
      destruct (in_dec ascii_dec ":"%char (list_ascii_of_string r)) as [Hin|Hout];
        [exact Hin|]. now apply IH in Hout.
    + destruct (Ascii.eqb c ":") eqn:E.
      * apply Ascii.eqb_eq in E. split; [discriminate | intros H; exfalso; apply H; now left].
      * apply Ascii.eqb_neq in E. split; [|reflexivity].
        intros _ [H|H]; [congruence | now apply (proj1 IH)].
Qed.

Lemma from_last_colon_shape (s t : string) :
  from_last_colon s = Some t ->
  exists host cause,
    s = host ++ t /\ t = String ":" cause /\ from_last_colon cause = None.
Proof.
  revert t. induction s as [|c r IH]; intros t H; simpl in H; [discriminate|].
  destruct (from_last_colon r) as [u|] eqn:E.
  - injection H as <-. destruct (IH u eq_refl) as (host & cause & Hs & Hu & Hc).
    exists (String c host), cause. simpl. now rewrite <- Hs.
  - destruct (Ascii.eqb c ":") eqn:Ec; [|discriminate].
    apply Ascii.eqb_eq in Ec. subst c. injection H as <-.
    now exists EmptyString, r.
Qed.

Lemma from_last_colon_tail (host cause : string) :
  from_last_colon cause = None ->
  from_last_colon (host ++ String ":" cause) = Some (String ":" cause).
Proof.
  intros H. induction host as [|c r IH]; simpl.
  - now rewrite H.
  - simpl in IH. now rewrite IH.
Qed.

(** ** [trimErrorHost], continued *)

Lemma trimErrorHost_host_cause (host cause : string) :
  ~ In ":"%char (list_ascii_of_string cause) ->
  trimErrorHost (errors_New (host ++ String ":" cause))
  = Ret (errors_New (String ":" cause)).
Proof.
  intros H. apply trimErrorHost_colon, from_last_colon_tail.
  now apply from_last_colon_none_iff.
Qed.

(** X1: [trimErrorHost] panics exactly on the errors whose message holds no
    [':']. *)
Theorem trimErrorHost_panics_iff (err : error) :
  trimErrorHost err = Panic <-> ~ In ":"%char (list_ascii_of_string (Error err)).
Proof.
  destruct err as [msg]. cbn [Error]. rewrite <- from_last_colon_none_iff.
  destruct (from_last_colon msg) as [t|] eqn:E.
  - rewrite (trimErrorHost_colon msg t E). split; discriminate.
  - rewrite (trimErrorHost_no_colon msg E). tauto.
Qed.

(** X2: [trimErrorHost] returns [trimmed] exactly when the message is some
    host part followed by the message of [trimmed], which is a [':'] and a
    cause that holds no [':']: the result is the suffix at the last [':'] and
    nothing else of the message survives. *)
Theorem trimErrorHost_returns_iff (err trimmed : error) :
  trimErrorHost err = Ret trimmed <->
  exists host cause,
    Error err = host ++ Error trimmed /\
    Error trimmed = String ":" cause /\
    ~ In ":"%char (list_ascii_of_string cause).
Proof.
  destruct err as [msg], trimmed as [t]. cbn [Error]. split.
  - intros H. destruct (from_last_colon msg) as [u|] eqn:E.
    + rewrite (trimErrorHost_colon msg u E) in H. injection H as <-.
      destruct (from_last_colon_shape msg u E) as (host & cause & Hs & Hu & Hc).
      exists host, cause. now rewrite <- from_last_colon_none_iff.
    + rewrite (trimErrorHost_no_colon msg E) in H. discriminate.
  - intros (host & cause & -> & -> & Hc). now apply trimErrorHost_host_cause.
Qed.

(** X3: trimming is idempotent: an error that [trimErrorHost] returned is
    returned unchanged when trimmed again. *)
Theorem trimErrorHost_idempotent (err trimmed : error) :
  trimErrorHost err = Ret trimmed -> trimErrorHost trimmed = Ret trimmed.
Proof.
  destruct err as [msg], trimmed as [t]. intros H.
  destruct (from_last_colon msg) as [u|] eqn:E.
  - rewrite (trimErrorHost_colon msg u E) in H. injection H as <-.
    destruct (from_last_colon_shape msg u E) as (host & cause & _ & -> & Hc).
    apply trimErrorHost_colon.
    exact (from_last_colon_tail EmptyString cause Hc).
  - rewrite (trimErrorHost_no_colon msg E) in H. discriminate.
Qed.

(** ** [getDiffsFromStrings], continued *)

(** X4: parsing distributes over the concatenation of line lists: the
    fragments of [front ++ back] are those of [front] followed by those of
    [back]. *)
Theorem getDiffsFromStrings_app (front back : list string) :
  getDiffsFromStrings (front ++ back)
  = (getDiffsFromStrings front ++ getDiffsFromStrings back)%list.
Proof.
  unfold getDiffsFromStrings.
  rewrite !(fold_left_append _ _ getDiffsFromStrings_step_spec).
  cbn [app]. apply flat_map_app.
Qed.

(** X5: the parser returns no fragment exactly when no line begins with
    ['+'] or with ['-']. *)
Theorem getDiffsFromStrings_nil_iff (lines : list string) :
  getDiffsFromStrings lines = [] <->
  Forall (fun line => strings.HasPrefix line "+" = false /\
                      strings.HasPrefix line "-" = false) lines.
Proof.
  unfold getDiffsFromStrings.
  rewrite (fold_left_append _ _ getDiffsFromStrings_step_spec). cbn [app].
  induction lines as [|line lines IH]; cbn [flat_map].
  - split; [constructor | reflexivity].
  - pose proof (getDiffsFromStrings_step_spec [] line) as Hstep. cbn [app] in Hstep.
    rewrite <- Hstep. unfold getDiffsFromStrings_step.
    destruct (strings.HasPrefix line "+") eqn:Eplus.
    + split; [discriminate|]. intros H. inversion H as [|? ? [Hp _] _]. congruence.
    + destruct (strings.HasPrefix line "-") eqn:Eminus.
      * split; [discriminate|]. intros H. inversion H as [|? ? [_ Hm] _]. congruence.
      * cbn [app]. rewrite IH. split.
        -- intros H. now constructor.
        -- intros H. now inversion H.
Qed.

(** X6: the parser inverts the rendering of fragments as prefixed lines: for
    every list of fragments, the lines made of ['+'] for an Insertion or
    ['-'] for a Deletion followed by the text parse back to the list, also
    when a text itself begins with ['+'] or ['-']. *)
Theorem getDiffsFromStrings_rendered (diffs : list Diff) :
  getDiffsFromStrings
    (map (fun d => String (match Type_ d with Insert => "+" | Delete => "-" end) (Text d))
         diffs)
  = diffs.
Proof.
  unfold getDiffsFromStrings.
  rewrite (fold_left_append _ _ getDiffsFromStrings_step_spec). cbn [app].
  induction diffs as [|[text kind] diffs IH]; [reflexivity|].
  cbn [map flat_map Text Type_]. rewrite IH. now destruct kind.
Qed.

(** ** [strings.Split] on a rendering made of lines *)

Lemma prefix_newline (c : ascii) (r : string) :
  String.prefix newline (String c r) = Ascii.eqb c (ascii_of_nat 10).
Proof. apply prefix_char. Qed.

Lemma Split_from_last_line (line cur : string) :
  no_newline line ->
  strings.Split_from newline line 0 cur = [cur ++ line].
Proof.
  unfold no_newline. revert cur. induction line as [|c r IH]; intros cur H.
  - simpl. now rewrite string_app_nil_r.
  - cbn [strings.Split_from]. rewrite prefix_newline.
    destruct (Ascii.eqb c (ascii_of_nat 10)) eqn:E.
    + apply Ascii.eqb_eq in E. exfalso. apply H. now left.
    + rewrite IH; [|intros Hin; apply H; now right].
      now rewrite string_app_assoc.
Qed.

Lemma Split_from_line (line rest cur : string) :
  no_newline line ->
  strings.Split_from newline (line ++ newline ++ rest) 0 cur
  = (cur ++ line) :: strings.Split_from newline rest 0 EmptyString.
Proof.
  unfold no_newline. revert cur. induction line as [|c r IH]; intros cur H.
  - change (EmptyString ++ newline ++ rest) with (String (ascii_of_nat 10) rest).
    cbn [strings.Split_from]. rewrite prefix_newline, Ascii.eqb_refl.
    now rewrite string_app_nil_r.
  - cbn [append strings.Split_from]. rewrite prefix_newline.
    destruct (Ascii.eqb c (ascii_of_nat 10)) eqn:E.
    + apply Ascii.eqb_eq in E. exfalso. apply H. now left.
    + rewrite IH; [|intros Hin; apply H; now right].
      now rewrite string_app_assoc.
Qed.

(** [strings.Split] on ["\n"] inverts the joining of lines with ["\n"]. *)
Lemma Split_join (lines : list string) :
  lines <> [] -> Forall no_newline lines ->
  strings.Split (String.concat newline lines) newline = lines.
Proof.
  intros Hne Hall. unfold strings.Split.
  change (String.eqb newline EmptyString) with false. cbv iota.
  destruct lines as [|line lines]; [congruence|]. clear Hne.
  revert line Hall. induction lines as [|next lines IH]; intros line Hall.
  - cbn [String.concat]. inversion Hall; subst. now rewrite Split_from_last_line.
  - inversion Hall as [|? ? Hline Hrest]; subst.
    change (String.concat newline (line :: next :: lines))
      with (line ++ newline ++ String.concat newline (next :: lines)).
    rewrite (Split_from_line _ _ _ Hline). now rewrite (IH next Hrest).
Qed.

(** ** The comparison engine, continued *)

Section Engine.

Context {N : Network} {T : TextDiffer} {J : JSONDiffer} {Q : HTMLQuery}.

(** X7: [compareStrings] returns the elements of the cleaned-up diff that
    are not equalities, in their order, each with its text, an insertion as
    Insert and a deletion as Delete. *)
Theorem compareStrings_keeps_edits (aString bString : string) :
  compareStrings aString bString
  = map (fun element =>
           mkDiff (diffmatchpatch.Text element)
                  (if diffmatchpatch.Operation_eqb (diffmatchpatch.Type_ element)
                        diffmatchpatch.DiffInsert
                   then Insert else Delete))
        (filter (fun element =>
                   negb (diffmatchpatch.Operation_eqb (diffmatchpatch.Type_ element)
                           diffmatchpatch.DiffEqual))
                (DiffCleanupSemantic (DiffMain aString bString true))).
Proof.
  rewrite compareStrings_edits.
  induction (DiffCleanupSemantic (DiffMain aString bString true)) as [|[op text] diffs IH];
    [reflexivity|].
  cbn [flat_map filter]. rewrite IH. unfold fragment_of_edit.
  now destruct op.
Qed.

(** X8: when both documents parse and every selector of the list extracts
    the same text from both, [compareHTMLs] returns no fragment and a [nil]
    error. *)
Theorem compareHTMLs_same_text (aResp bResp : option http.Response) (aDoc bDoc : Document)
  (compareElements : list string) :
  TextDiffer_contract T ->
  NewDocumentFromResponse aResp = Ok aDoc ->
  NewDocumentFromResponse bResp = Ok bDoc ->
  (forall element, In element compareElements ->
     Selection_Text (Find aDoc element) = Selection_Text (Find bDoc element)) ->
  compareHTMLs aResp bResp compareElements = ([], None).
Proof.
  intros HT Ha Hb Hsame. rewrite (compareHTMLs_parsed _ _ _ _ _ Ha Hb). f_equal.
  induction compareElements as [|element rest IH]; [reflexivity|].
  cbn [flat_map]. rewrite IH by (intros; apply Hsame; now right).
  unfold compareHTMLs_step. cbn [app]. rewrite (Hsame element) by now left.
  now rewrite compareStrings_identical.
Qed.

(** X9: when both bodies are read, the differ accepts them and the formatter
    renders lines joined by line feeds, [compareJSONs] returns, with a [nil]
    error, one fragment for each line that begins with ['+'] or ['-'], in the
    order of the lines. *)
Theorem compareJSONs_rendered_lines (aResp bResp : http.Response) (aBody bBody : string)
  (diff : JSONDiff) (lines : list string) :
  ioutil.ReadAll (http.Body aResp) = (aBody, None) ->
  ioutil.ReadAll (http.Body bResp) = (bBody, None) ->
  jsonDiffer_Compare aBody bBody = Ok diff ->
  AsciiFormatter_Format (fst (json_Unmarshal aBody)) diff
  = Ok (String.concat newline lines) ->
  lines <> [] -> Forall no_newline lines ->
  compareJSONs (Some aResp) (Some bResp) = Ret (flat_map fragment_of_line lines, None).
Proof.
  intros Ha Hb Hc Hf Hne Hall. unfold compareJSONs. rewrite Ha, Hb, Hc, Hf.
  rewrite (Split_join lines Hne Hall).
  unfold getDiffsFromStrings.
  now rewrite (fold_left_append _ _ getDiffsFromStrings_step_spec).
Qed.

Lemma compareJSONs_returns (aResp bResp : http.Response) :
  exists (diffs : list Diff) (err : option error),
    compareJSONs (Some aResp) (Some bResp) = Ret (diffs, err) /\
    (err <> None -> diffs = []).
Proof.
  unfold compareJSONs.
  destruct (ioutil.ReadAll (http.Body aResp)) as [aBody [ea|]];
    [eexists _, _; split; [reflexivity | reflexivity]|].
  destruct (ioutil.ReadAll (http.Body bResp)) as [bBody [eb|]];
    [eexists _, _; split; [reflexivity | reflexivity]|].
  destruct (jsonDiffer_Compare aBody bBody) as [diff|e];
    [|eexists _, _; split; [reflexivity | reflexivity]].
  destruct (AsciiFormatter_Format (fst (json_Unmarshal aBody)) diff) as [rendered|e];
    eexists _, _; (split; [reflexivity | try reflexivity]).
  congruence.
Qed.


Lemma compareHTMLs_error_nil (aResp bResp : option http.Response)
  (compareElements : list string) (diffs : list Diff) (e : error) :
  compareHTMLs aResp bResp compareElements = (diffs, Some e) -> diffs = [].
Proof.
  unfold compareHTMLs.
  destruct (NewDocumentFromResponse aResp); [|congruence].
  destruct (NewDocumentFromResponse bResp); congruence.
Qed.

(** X11: under the contract of [http.Get], [Compare] never panics: for all
    URLs, selector lists and states of the network it returns. *)
Theorem Compare_never_panics (w : World) (aURL bURL : string)
  (compareElements : option (list string)) :
  http_Get_contract N ->
  exists (diffs : list Diff) (err : option error),
    Compare w aURL bURL compareElements = Ret (diffs, err).
Proof.
  intros HN. unfold Compare.
  destruct (http_Get w aURL) as [[aResp aErr] w1] eqn:Ha.
  destruct (http_Get w1 bURL) as [[bResp bErr] w2] eqn:Hb.
  pose proof (HN _ _ _ _ _ Ha) as Hca. pose proof (HN _ _ _ _ _ Hb) as Hcb.
  destruct aErr as [ea|], bErr as [eb|].
  - rewrite (trimErrorHost_fetch_error _ _ _ _ _ HN Ha),
      (trimErrorHost_fetch_error _ _ _ _ _ HN Hb).
    eexists _, _. reflexivity.
  - rewrite (trimErrorHost_fetch_error _ _ _ _ _ HN Ha).
    destruct bResp; [|congruence]. eexists _, _. reflexivity.
  - rewrite (trimErrorHost_fetch_error _ _ _ _ _ HN Hb).
    destruct aResp; [|congruence]. eexists _, _. reflexivity.
  - destruct compareElements as [elements|].
    + destruct (compareHTMLs aResp bResp elements) as [diffs err].
      eexists _, _. reflexivity.
    + destruct aResp as [a|]; [|congruence]. destruct bResp as [b|]; [|congruence].
      destruct (compareJSONs_returns a b) as (diffs & err & -> & _).
      eexists _, _. reflexivity.
Qed.

(** X12: an error returned by [Compare] never comes with fragments, and it
    is never a fetch failure: when the error is not [nil], the slice is
    [nil] and both fetches had succeeded. *)
Theorem Compare_error_without_fragments (w : World) (aURL bURL : string)
  (compareElements : option (list string))
  (aResp bResp : option http.Response) (aErr bErr : option error) (w1 w2 : World)
  (diffs : list Diff) (e : error) :
  http_Get w aURL = (aResp, aErr, w1) ->
  http_Get w1 bURL = (bResp, bErr, w2) ->
  Compare w aURL bURL compareElements = Ret (diffs, Some e) ->
  diffs = [] /\ aErr = None /\ bErr = None.
Proof.
  intros Ha Hb. unfold Compare. rewrite Ha, Hb.
  destruct aErr as [ea|], bErr as [eb|].
  - destruct (trimErrorHost ea); [|discriminate].
    destruct (trimErrorHost eb); discriminate.
  - destruct (trimErrorHost ea); [|discriminate]. destruct bResp; discriminate.
  - destruct (trimErrorHost eb); [|discriminate]. destruct aResp; discriminate.
  - intros H. repeat split. destruct compareElements as [elements|].
    + injection H as H. now apply compareHTMLs_error_nil in H.
    + destruct aResp as [a|]; [|discriminate]. destruct bResp as [b|]; [|discriminate].
      destruct (compareJSONs_returns a b) as (ds & err & Hret & Hnil).
      rewrite Hret in H. injection H as <- ->. now apply Hnil.
Qed.

(** X13: when a fetch fails the selector list is not consulted: [Compare]
    gives the same outcome for every selector list. *)
Theorem Compare_failure_ignores_selectors (w : World) (aURL bURL : string)
  (aResp bResp : option http.Response) (aErr bErr : option error) (w1 w2 : World)
  (compareElements compareElements' : option (list string)) :
  http_Get w aURL = (aResp, aErr, w1) ->
  http_Get w1 bURL = (bResp, bErr, w2) ->
  aErr <> None \/ bErr <> None ->
  Compare w aURL bURL compareElements = Compare w aURL bURL compareElements'.
Proof.
  intros Ha Hb Hfail. unfold Compare. rewrite Ha, Hb.
  destruct aErr, bErr; try reflexivity. destruct Hfail; congruence.
Qed.

(** X14: when both fetches fail for the same cause, two messages that end
    with the same [':'] and cause after different host parts, [Compare]
    returns no fragment and a [nil] error. *)
Theorem Compare_same_cause (w : World) (aURL bURL : string)
  (compareElements : option (list string))
  (aResp bResp : option http.Response) (aErr bErr : error) (w1 w2 : World)
  (aHost bHost cause : string) :
  TextDiffer_contract T ->
  http_Get w aURL = (aResp, Some aErr, w1) ->
  http_Get w1 bURL = (bResp, Some bErr, w2) ->
  Error aErr = aHost ++ String ":" cause ->
  Error bErr = bHost ++ String ":" cause ->
  ~ In ":"%char (list_ascii_of_string cause) ->
  Compare w aURL bURL compareElements = Ret ([], None).
Proof.
  intros HT Ha Hb Hea Heb Hcause. unfold Compare. rewrite Ha, Hb.
  destruct aErr as [aMsg], bErr as [bMsg]. cbn [Error] in Hea, Heb. subst aMsg bMsg.
  rewrite !(trimErrorHost_host_cause _ _ Hcause). cbn [bind Error].
  now rewrite compareStrings_identical.
Qed.

End Engine.

(** ** The statements on the scripted environment *)

#[local] Existing Instance Scripted.network.
#[local] Existing Instance Scripted.textDiffer.
#[local] Existing Instance Scripted.jsonDiffer.
#[local] Existing Instance Scripted.htmlQuery.

Lemma Scripted_http_Get_contract : http_Get_contract Scripted.network.
Proof.
  intros w url resp err w' H.
  destruct w as [|[r|cause] w]; cbn in H; inversion H; subst; clear H.
  - now exists "Get", url, "EOF".
  - discriminate.
  - now exists "Get", url, cause.
Qed.

Lemma Scripted_edit_equal (s : string) :
  Forall diffmatchpatch.is_equal (Scripted.edit diffmatchpatch.DiffEqual s).
Proof.
  unfold Scripted.edit. destruct (String.eqb s EmptyString); repeat constructor.
Qed.

Lemma Scripted_TextDiffer_contract : TextDiffer_contract Scripted.textDiffer.
Proof.
  split.
  - intros s checklines. cbn. unfold Scripted.replace_whole.
    rewrite String.eqb_refl. apply Scripted_edit_equal.
  - intros diffs H. exact H.
Qed.

Lemma Scripted_JSONDiffer_contract : JSONDiffer_contract Scripted.jsonDiffer.
Proof.
  intros left right H. cbn in *. unfold Scripted.pair_up.
  exists (errors_New "invalid character").
  destruct H as [-> | ->]; [reflexivity | now rewrite andb_false_r].
Qed.

Lemma Compare_one_fetch_failed_witness :
  Compare (N := Scripted.network) [inr "connection refused"; inl (Scripted.ok "200 OK" "{}")]
    "http://a.test/" "http://b.test/" None
  = Ret ([mkDiff ": connection refused" Delete; mkDiff "200 OK" Insert], None) /\
  Compare (N := Scripted.network) [inl (Scripted.ok "200 OK" "{}"); inr "connection refused"]
    "http://a.test/" "http://b.test/" None
  = Ret ([mkDiff "200 OK" Delete; mkDiff ": connection refused" Insert], None).
Proof.
  split.
  - destruct (proj1 (Compare_one_fetch_failed (N := Scripted.network)
                       [inr "connection refused"; inl (Scripted.ok "200 OK" "{}")]
                       "http://a.test/" "http://b.test/" None _ _ _ _ _ _
                       Scripted_http_Get_contract eq_refl eq_refl) _ eq_refl eq_refl)
      as (trimmed & resp & _ & Htext & Hresp & Hcompare).
    rewrite Hcompare, Htext. injection Hresp as <-. reflexivity.
  - destruct (proj2 (Compare_one_fetch_failed (N := Scripted.network)
                       [inl (Scripted.ok "200 OK" "{}"); inr "connection refused"]
                       "http://a.test/" "http://b.test/" None _ _ _ _ _ _
                       Scripted_http_Get_contract eq_refl eq_refl) _ eq_refl eq_refl)
      as (trimmed & resp & _ & Htext & Hresp & Hcompare).
    rewrite Hcompare, Htext. injection Hresp as <-. reflexivity.
Defined.

Lemma Compare_both_fetches_failed_witness :
  Compare (N := Scripted.network) [inr "connection refused"; inr "no such host"]
    "http://a.test/" "http://b.test/" (Some ["h1"])
  = Ret ([mkDiff ": connection refused" Delete; mkDiff ": no such host" Insert], None).
Proof.
  destruct (Compare_both_fetches_failed (N := Scripted.network)
              [inr "connection refused"; inr "no such host"]
              "http://a.test/" "http://b.test/" (Some ["h1"]) _ _ _ _ _ _
              Scripted_http_Get_contract eq_refl eq_refl)
    as (aError & bError & _ & Ha & _ & Hb & Hcompare).
  rewrite Hcompare, Ha, Hb. reflexivity.
Defined.

Lemma compareJSONs_error_witness :
  (exists e, compareJSONs (Some (Scripted.ok "200 OK" "<html>"))
                          (Some (Scripted.ok "200 OK" "{}")) = Ret ([], Some e)) /\
  (exists e, compareJSONs (Some (Scripted.ok "200 OK" "{}"))
                          (Some (http.mkResponse "200 OK"
                                   (io.Data "{" (io.ReadError (errors_New "unexpected EOF")))))
             = Ret ([], Some e)).
Proof.
  split.
  - apply (compareJSONs_error (Scripted.ok "200 OK" "<html>") (Scripted.ok "200 OK" "{}")
             Scripted_JSONDiffer_contract).
    right; right; left. reflexivity.
  - apply (compareJSONs_error (Scripted.ok "200 OK" "{}")
             (http.mkResponse "200 OK" (io.Data "{" (io.ReadError (errors_New "unexpected EOF"))))
             Scripted_JSONDiffer_contract).
    right; left. discriminate.
Defined.

Lemma compareStrings_same_witness : compareStrings "Hello" "Hello" = [].
Proof. exact (compareStrings_same "Hello" Scripted_TextDiffer_contract). Defined.

Lemma compareHTMLs_no_match_witness :
  compareHTMLs (Some (Scripted.ok "200 OK" "Hello")) (Some (Scripted.ok "200 OK" "Hi"))
    ["h1"; "body"]
  = ([mkDiff "Hello" Delete; mkDiff "Hi" Insert], None) /\
  compareHTMLs_step (Q := Scripted.htmlQuery) "Hello" "Hi" [] "h1" = [].
Proof.
  destruct (compareHTMLs_no_match (Q := Scripted.htmlQuery)
              (Some (Scripted.ok "200 OK" "Hello")) (Some (Scripted.ok "200 OK" "Hi"))
              "Hello" "Hi" ["h1"; "body"]
              Scripted_TextDiffer_contract eq_refl eq_refl) as [Hall Hone].
  split.
  - rewrite Hall. reflexivity.
  - apply (Hone "h1"); reflexivity.
Defined.

Lemma Compare_selects_by_nil_witness :
  Compare (N := Scripted.network) [inl (Scripted.ok "200 OK" "{}"); inl (Scripted.ok "200 OK" "{}")]
    "http://a.test/" "http://b.test/" (Some [])
  = Ret ([], None) /\
  Compare (N := Scripted.network) [inl (Scripted.ok "200 OK" "{}"); inl (Scripted.ok "200 OK" "{}")]
    "http://a.test/" "http://b.test/" None
  = compareJSONs (Some (Scripted.ok "200 OK" "{}")) (Some (Scripted.ok "200 OK" "{}")).
Proof.
  destruct (Compare_selects_by_nil (N := Scripted.network)
              [inl (Scripted.ok "200 OK" "{}"); inl (Scripted.ok "200 OK" "{}")]
              "http://a.test/" "http://b.test/" _ _ _ _ eq_refl eq_refl)
    as (Hjson & _ & Hempty).
  split.
  - apply (Hempty ("{}" : @Document Scripted.htmlQuery) ("{}" : @Document Scripted.htmlQuery));
      reflexivity.
  - exact Hjson.
Defined.

(** ** The further properties on the scripted environment *)

Ltac not_among :=
  simpl; let H := fresh "H" in
  intros H; repeat (destruct H as [H|H]; [discriminate H|]); exact H.

Lemma trimErrorHost_panics_iff_witness : trimErrorHost (errors_New "EOF") = Panic.
Proof. apply (proj2 (trimErrorHost_panics_iff (errors_New "EOF"))). not_among. Defined.

Lemma trimErrorHost_returns_iff_witness :
  trimErrorHost (errors_New "Get http://a.test/: EOF") = Ret (errors_New ": EOF").
Proof.
  apply (proj2 (trimErrorHost_returns_iff (errors_New "Get http://a.test/: EOF")
                  (errors_New ": EOF"))).
  exists "Get http://a.test/", " EOF". repeat split. not_among.
Defined.

Lemma trimErrorHost_idempotent_witness :
  trimErrorHost (errors_New ": connection refused")
  = Ret (errors_New ": connection refused").
Proof.
  apply (trimErrorHost_idempotent
           (errors_New "dial tcp 127.0.0.1:80: connection refused")
           (errors_New ": connection refused")).
  reflexivity.
Defined.

Lemma getDiffsFromStrings_nil_iff_witness :
  getDiffsFromStrings [" {"; "   a: 1"; " }"; EmptyString] = [].
Proof.
  apply (proj2 (getDiffsFromStrings_nil_iff [" {"; "   a: 1"; " }"; EmptyString])).
  repeat constructor.
Defined.

Lemma compareHTMLs_same_text_witness :
  compareHTMLs (Some (Scripted.ok "200 OK" "Hello")) (Some (Scripted.ok "404 Not Found" "Hello"))
    ["body"; "h1"; "body"]
  = ([], None).
Proof.
  apply (compareHTMLs_same_text (Q := Scripted.htmlQuery)
           (Some (Scripted.ok "200 OK" "Hello")) (Some (Scripted.ok "404 Not Found" "Hello"))
           "Hello" "Hello" ["body"; "h1"; "body"] Scripted_TextDiffer_contract eq_refl eq_refl).
  intros element _. reflexivity.
Defined.

Lemma compareJSONs_rendered_lines_witness :
  compareJSONs (Some (Scripted.ok "200 OK" "{a}")) (Some (Scripted.ok "200 OK" "{b}"))
  = Ret ([mkDiff "{a}" Delete; mkDiff "{b}" Insert], None).
Proof.
  apply (compareJSONs_rendered_lines (J := Scripted.jsonDiffer)
           (Scripted.ok "200 OK" "{a}") (Scripted.ok "200 OK" "{b}") "{a}" "{b}"
           ("{a}", "{b}") ["-{a}"; "+{b}"] eq_refl eq_refl eq_refl eq_refl).
  - discriminate.
  - repeat constructor; unfold no_newline; not_among.
Defined.


Lemma Compare_never_panics_witness :
  exists (diffs : list Diff) (err : option error),
    Compare (N := Scripted.network) [inl (Scripted.ok "200 OK" "<html>")]
      "http://a.test/" "http://b.test/" None
    = Ret (diffs, err).
Proof.
  exact (Compare_never_panics (N := Scripted.network) [inl (Scripted.ok "200 OK" "<html>")]
           "http://a.test/" "http://b.test/" None Scripted_http_Get_contract).
Defined.

Lemma Compare_error_without_fragments_witness :
  Compare (N := Scripted.network)
    [inl (Scripted.ok "200 OK" "<html>"); inl (Scripted.ok "200 OK" "{}")]
    "http://a.test/" "http://b.test/" None
  = Ret ([], Some (errors_New "invalid character")) /\
  ([] : list Diff) = [] /\ (None : option error) = None /\ (None : option error) = None.
Proof.
  split; [reflexivity|].
  exact (Compare_error_without_fragments (N := Scripted.network)
           [inl (Scripted.ok "200 OK" "<html>"); inl (Scripted.ok "200 OK" "{}")]
           "http://a.test/" "http://b.test/" None _ _ _ _ _ _ []
           (errors_New "invalid character") eq_refl eq_refl eq_refl).
Defined.

Lemma Compare_failure_ignores_selectors_witness :
  Compare (N := Scripted.network)
    [inr "connection refused"; inl (Scripted.ok "200 OK" "{}")]
    "http://a.test/" "http://b.test/" None
  = Compare (N := Scripted.network)
      [inr "connection refused"; inl (Scripted.ok "200 OK" "{}")]
      "http://a.test/" "http://b.test/" (Some ["h1"]).
Proof.
  apply (Compare_failure_ignores_selectors (N := Scripted.network)
           [inr "connection refused"; inl (Scripted.ok "200 OK" "{}")]
           "http://a.test/" "http://b.test/" _ _ _ _ _ _ None (Some ["h1"])
           eq_refl eq_refl).
  left. discriminate.
Defined.

Lemma Compare_same_cause_witness :
  Compare (N := Scripted.network) [inr "connection refused"; inr "connection refused"]
    "http://a.test/" "http://b.test:8080/" (Some ["h1"])
  = Ret ([], None).
Proof.
  apply (Compare_same_cause (N := Scripted.network)
           [inr "connection refused"; inr "connection refused"]
           "http://a.test/" "http://b.test:8080/" (Some ["h1"]) _ _ _ _ _ _
           "Get http://a.test/" "Get http://b.test:8080/" " connection refused"
           Scripted_TextDiffer_contract eq_refl eq_refl eq_refl eq_refl).
  not_among.
Defined.
